(** * Instruction-metadata registry (InstEntry.hpp)

    A shallow embedding of the instruction descriptor [InstEntry] and of
    the registry [InstTable] of the RISC-V simulator, together with the
    properties of their query surface.

    Conventions.  [uint32_t] and [unsigned] values are modelled in [N];
    no arithmetic is performed on them by this component, they are only
    stored, compared and returned.  [std::string] is [string],
    [std::vector] is [list], [std::unordered_map] is stdpp's [gmap]. *)

From Stdlib Require Import NArith.
From stdpp Require Import gmap strings list fin_maps.

Local Open Scope N_scope.

(** ** Enumerations *)

Module OperandType.
Inductive t := IntReg | FpReg | CsReg | VecReg | Imm | None.

#[global] Instance OperandType_eq_dec : EqDecision t.
Proof. solve_decision. Defined.
End OperandType.

Module OperandMode.
Inductive t := Read | Write | ReadWrite | None.

#[global] Instance OperandMode_eq_dec : EqDecision t.
Proof. solve_decision. Defined.
End OperandMode.

Module InstType.
Inductive t :=
| Load | Store | Multiply | Divide | Branch | Int | Fp
| Csr | Atomic | Vector | Zba | Zbb | Zbc | Zbe | Zbf | Zbm | Zbp
| Zbr | Zbs | Zbt.

#[global] Instance InstType_eq_dec : EqDecision t.
Proof. solve_decision. Defined.
End InstType.

(** Instruction identifiers.  The enumeration [InstId] is declared in
    InstId.hpp; an identifier is "an integer between 0 and n where n is
    the number of defined instructions". *)
Abbreviation InstId := N (only parsing).

(** Modelled from the spec: the enumerator [InstId::illegal] (InstId.hpp is
    not part of the sources).  The illegal instruction "occupies a fixed,
    well-known identifier" and "must be registered first" in the
    identifier-indexed collection, hence it is the first identifier. *)
Definition illegal : InstId := 0.

(** ** Free functions on instruction words *)

Definition isFullSizeInst (inst : N) : bool :=
  bool_decide (N.land inst 3 = 3).

Definition isCompressedInst (inst : N) : bool :=
  bool_decide (N.land inst 3 ≠ 3).

Definition instructionSize (inst : N) : N :=
  if bool_decide (N.land inst 3 = 3) then 4 else 2.

(** ** InstEntry

    Generic information about one instruction: opcode, type, operand
    count, and type, direction and bit field of up to four operands. *)

Module InstEntry.

Record t := mk {
  name_ : string;
  id_ : InstId;
  code_ : N;      (* code with all operand bits set to zero *)
  codeMask_ : N;  (* bits corresponding to code bits are 1 *)
  type_ : InstType.t;
  op0Mask_ : N;
  op1Mask_ : N;
  op2Mask_ : N;
  op3Mask_ : N;
  op0Type_ : OperandType.t;
  op1Type_ : OperandType.t;
  op2Type_ : OperandType.t;
  op3Type_ : OperandType.t;
  op0Mode_ : OperandMode.t;
  op1Mode_ : OperandMode.t;
  op2Mode_ : OperandMode.t;
  op3Mode_ : OperandMode.t;
  opCount_ : N;
  ldSize_ : N;         (* load size: zero for non-load *)
  stSize_ : N;         (* store size: zero for non-store *)
  isUns_ : bool;       (* true if source operands are unsigned *)
  isCond_ : bool;      (* true if conditional branch *)
  isRegBranch_ : bool; (* true if branch to register *)
  isBitManip_ : bool   (* true if bit manipulation instruction *)
}.

#[global] Instance InstEntry_eq_dec : EqDecision t.
Proof. solve_decision. Defined.

Definition name (e : t) : string := name_ e.

Definition instId (e : t) : InstId := id_ e.

Definition code (e : t) : N := code_ e.

Definition codeMask (e : t) : N := codeMask_ e.

Definition operandCount (e : t) : N := opCount_ e.

Definition ithOperandType (e : t) (i : N) : OperandType.t :=
  if i =? 0 then op0Type_ e
  else if i =? 1 then op1Type_ e
  else if i =? 2 then op2Type_ e
  else if i =? 3 then op3Type_ e
  else OperandType.None.

Definition ithOperandMode (e : t) (i : N) : OperandMode.t :=
  if i =? 0 then op0Mode_ e
  else if i =? 1 then op1Mode_ e
  else if i =? 2 then op2Mode_ e
  else if i =? 3 then op3Mode_ e
  else OperandMode.None.

Definition isIthOperandWrite (e : t) (i : N) : bool :=
  let mode := ithOperandMode e i in
  bool_decide (mode = OperandMode.Write)
  || bool_decide (mode = OperandMode.ReadWrite).

Definition isIthOperandRead (e : t) (i : N) : bool :=
  let mode := ithOperandMode e i in
  bool_decide (mode = OperandMode.Read)
  || bool_decide (mode = OperandMode.ReadWrite).

Definition ithOperandMask (e : t) (i : N) : N :=
  if i =? 0 then op0Mask_ e
  else if i =? 1 then op1Mask_ e
  else if i =? 2 then op2Mask_ e
  else if i =? 3 then op3Mask_ e
  else 0.

Definition isIthOperandIntRegSource (e : t) (i : N) : bool :=
  if bool_decide (ithOperandType e i ≠ OperandType.IntReg) then false
  else bool_decide (ithOperandMode e i = OperandMode.Read).

Definition isIthOperandFpRegSource (e : t) (i : N) : bool :=
  if bool_decide (ithOperandType e i ≠ OperandType.FpReg) then false
  else bool_decide (ithOperandMode e i = OperandMode.Read).

Definition type (e : t) : InstType.t := type_ e.

Definition isLoad (e : t) : bool := bool_decide (type_ e = InstType.Load).

Definition isStore (e : t) : bool := bool_decide (type_ e = InstType.Store).

Definition isBranch (e : t) : bool := bool_decide (type_ e = InstType.Branch).

Definition isMultiply (e : t) : bool :=
  bool_decide (type_ e = InstType.Multiply).

Definition isDivide (e : t) : bool := bool_decide (type_ e = InstType.Divide).

Definition isCsr (e : t) : bool := bool_decide (type_ e = InstType.Csr).

Definition isAtomic (e : t) : bool := bool_decide (type_ e = InstType.Atomic).

Definition isVector (e : t) : bool := bool_decide (type_ e = InstType.Vector).

Definition isUnsigned (e : t) : bool := isUns_ e.

Definition isBranchToRegister (e : t) : bool := isRegBranch_ e.

Definition isConditionalBranch (e : t) : bool := isCond_ e.

Definition isBitManipulation (e : t) : bool := isBitManip_ e.

Definition loadSize (e : t) : N := ldSize_ e.

Definition storeSize (e : t) : N := stSize_ e.

(** Protected setters, reserved to the friend class [InstTable]. *)

Definition setIsUnsigned (e : t) (flag : bool) : t :=
  let 'mk n i c cm ty m0 m1 m2 m3 t0 t1 t2 t3 o0 o1 o2 o3 cnt ld st _ cd rb bm
    := e in
  mk n i c cm ty m0 m1 m2 m3 t0 t1 t2 t3 o0 o1 o2 o3 cnt ld st flag cd rb bm.

Definition setLoadSize (e : t) (size : N) : t :=
  let 'mk n i c cm ty m0 m1 m2 m3 t0 t1 t2 t3 o0 o1 o2 o3 cnt _ st u cd rb bm
    := e in
  mk n i c cm ty m0 m1 m2 m3 t0 t1 t2 t3 o0 o1 o2 o3 cnt size st u cd rb bm.

Definition setStoreSize (e : t) (size : N) : t :=
  let 'mk n i c cm ty m0 m1 m2 m3 t0 t1 t2 t3 o0 o1 o2 o3 cnt ld _ u cd rb bm
    := e in
  mk n i c cm ty m0 m1 m2 m3 t0 t1 t2 t3 o0 o1 o2 o3 cnt ld size u cd rb bm.

Definition setConditionalBranch (e : t) (flag : bool) : t :=
  let 'mk n i c cm ty m0 m1 m2 m3 t0 t1 t2 t3 o0 o1 o2 o3 cnt ld st u _ rb bm
    := e in
  mk n i c cm ty m0 m1 m2 m3 t0 t1 t2 t3 o0 o1 o2 o3 cnt ld st u flag rb bm.

Definition setBranchToRegister (e : t) (flag : bool) : t :=
  let 'mk n i c cm ty m0 m1 m2 m3 t0 t1 t2 t3 o0 o1 o2 o3 cnt ld st u cd _ bm
    := e in
  mk n i c cm ty m0 m1 m2 m3 t0 t1 t2 t3 o0 o1 o2 o3 cnt ld st u cd flag bm.

(** Number of operand slots, among the four, whose type is not [None]. *)
Definition populatedSlots (t0 t1 t2 t3 : OperandType.t) : N :=
  (if bool_decide (t0 ≠ OperandType.None) then 1 else 0)
  + (if bool_decide (t1 ≠ OperandType.None) then 1 else 0)
  + (if bool_decide (t2 ≠ OperandType.None) then 1 else 0)
  + (if bool_decide (t3 ≠ OperandType.None) then 1 else 0).

(** Modelled from the spec: the body of the constructor [InstEntry::InstEntry]
    (only its declaration is part of the sources).  "Construction takes
    all fields above": every argument is stored in the member of the same
    name, and "operandCount equals the count of slots with type != None".
    The sizes and flags keep their in-class initialisers ([0], [false]);
    they are set afterwards by the table through the setters. *)
Definition InstEntry (name : string) (id : InstId) (code mask : N)
    (type : InstType.t)
    (op0Type : OperandType.t) (op0Mode : OperandMode.t) (op0Mask : N)
    (op1Type : OperandType.t) (op1Mode : OperandMode.t) (op1Mask : N)
    (op2Type : OperandType.t) (op2Mode : OperandMode.t) (op2Mask : N)
    (op3Type : OperandType.t) (op3Mode : OperandMode.t) (op3Mask : N) : t :=
  {| name_ := name; id_ := id; code_ := code; codeMask_ := mask;
     type_ := type;
     op0Mask_ := op0Mask; op1Mask_ := op1Mask;
     op2Mask_ := op2Mask; op3Mask_ := op3Mask;
     op0Type_ := op0Type; op1Type_ := op1Type;
     op2Type_ := op2Type; op3Type_ := op3Type;
     op0Mode_ := op0Mode; op1Mode_ := op1Mode;
     op2Mode_ := op2Mode; op3Mode_ := op3Mode;
     opCount_ := populatedSlots op0Type op1Type op2Type op3Type;
     ldSize_ := 0; stSize_ := 0;
     isUns_ := false; isCond_ := false; isRegBranch_ := false;
     isBitManip_ := false |}.

(** The entry obtained when every constructor argument is defaulted:
    [name = ""], [id = InstId::illegal], [code = 0], [mask = ~0],
    [type = InstType::Int], and each operand [None], [None], [0]. *)
Definition default : t :=
  InstEntry "" illegal 0 0xffffffff InstType.Int
    OperandType.None OperandMode.None 0
    OperandType.None OperandMode.None 0
    OperandType.None OperandMode.None 0
    OperandType.None OperandMode.None 0.

End InstEntry.

(** ** InstTable

    Maps an instruction id or an instruction name to the opcode and
    operand information of that instruction.  The class is declared in
    the header; the bodies of its member functions are not part of the
    sources and are modelled from the specification.  The fixed catalog of
    instruction variants enumerated by the constructor is not available
    either: it is a parameter, the list of finished descriptors (base
    fields, then sizes and flags set through the setters) in catalog
    order. *)

Module InstTable.

Record t := mk {
  instVec_ : list InstEntry.t;
  instMap_ : gmap string InstId
}.

(** The table before the constructor body runs: both members empty. *)
Definition empty : t := {| instVec_ := []; instMap_ := ∅ |}.

(** Which return statement of a lookup produced the result: the indexed
    entry, or the illegal-instruction sentinel after a failed lookup. *)
Inductive Via := Indexed | Sentinel.

#[global] Instance Via_eq_dec : EqDecision Via.
Proof. solve_decision. Defined.

Definition size (tbl : t) : N := N.of_nat (length (instVec_ tbl)).

(** Modelled from the spec: the helper [InstTable::setupInstVec].  It
    "populates the dense collection by iterating the fixed internal
    catalog definition ..., appending to the identifier-indexed
    collection in catalog order". *)
Definition setupInstVec (catalog : list InstEntry.t) (tbl : t) : t :=
  {| instVec_ := instVec_ tbl ++ catalog; instMap_ := instMap_ tbl |}.

(** Modelled from the spec: the part of the constructor that fills the
    name index, "inserting (name, id) into the name index" for each
    entry of the collection, in catalog order. *)
Definition insertNames (v : list InstEntry.t) (m : gmap string InstId)
    : gmap string InstId :=
  foldl (λ m e, <[InstEntry.name e := InstEntry.instId e]> m) m v.

Definition indexNames (tbl : t) : t :=
  {| instVec_ := instVec_ tbl;
     instMap_ := insertNames (instVec_ tbl) (instMap_ tbl) |}.

(** Modelled from the spec: the construction-time consistency checks.
    The illegal instruction "must be registered first", and the
    collection is "dense", "indexed by identifier": "every identifier
    maps to exactly one dense array slot" (the entry at position [k]
    carries identifier [k]).  Names are "not guaranteed globally unique
    across the whole catalog" and the construction described by the spec
    inserts each (name, id) as it comes: no check on names is modelled,
    nor on masks. *)
Definition sentinelFirst (v : list InstEntry.t) : bool :=
  match v with
  | e :: _ => InstEntry.instId e =? illegal
  | [] => false
  end.

Fixpoint denseFrom (k : N) (v : list InstEntry.t) : bool :=
  match v with
  | [] => true
  | e :: v' => (InstEntry.instId e =? k) && denseFrom (N.succ k) v'
  end.

Definition consistent (tbl : t) : bool :=
  sentinelFirst (instVec_ tbl) && denseFrom 0 (instVec_ tbl).

(** Modelled from the spec: the constructor [InstTable::InstTable].  The
    table is "populated exactly once from a fixed internal catalog";
    catalog inconsistencies are "fatal at build time (assertion/abort)",
    rendered here by [None]: no table is produced. *)
Definition InstTable (catalog : list InstEntry.t) : option t :=
  let tbl := indexNames (setupInstVec catalog empty) in
  if consistent tbl then Some tbl else None.

(** The illegal-instruction entry held by the table, if any. *)
Definition sentinel (tbl : t) : option InstEntry.t :=
  instVec_ tbl !! N.to_nat illegal.

(** Modelled from the spec: [InstTable::getEntry(InstId)] "returns the entry
    at position id if id is within the valid populated range, otherwise
    returns the illegal-instruction sentinel".  The result is a reference
    to an entry owned by the table; [None] stands for the absence of any
    such entry (a failed access). *)
Definition getEntryVia (tbl : t) (id : InstId) : Via * option InstEntry.t :=
  if id <? size tbl then (Indexed, instVec_ tbl !! N.to_nat id)
  else (Sentinel, sentinel tbl).

Definition getEntry (tbl : t) (id : InstId) : option InstEntry.t :=
  (getEntryVia tbl id).2.

(** Modelled from the spec: [InstTable::getEntry(const std::string&)]
    "returns the entry whose identifier is found via the name index,
    otherwise the illegal-instruction sentinel". *)
Definition getEntryVia_name (tbl : t) (name : string)
    : Via * option InstEntry.t :=
  match instMap_ tbl !! name with
  | Some id => getEntryVia tbl id
  | None => (Sentinel, sentinel tbl)
  end.

Definition getEntry_name (tbl : t) (name : string) : option InstEntry.t :=
  (getEntryVia_name tbl name).2.

(** Modelled from the spec: [InstTable::hasInfo(InstId)], "true if given id
    is present in the table"; it "is false for any id outside the
    populated range". *)
Definition hasInfo (tbl : t) (id : InstId) : bool := id <? size tbl.

(** Modelled from the spec: [InstTable::hasInfo(const std::string&)], "true
    if given instance name is present in the table". *)
Definition hasInfo_name (tbl : t) (name : string) : bool :=
  bool_decide (is_Some (instMap_ tbl !! name)).

(** The invariant of a table in its serving phase: the sentinel is
    present, the collection is dense (position = identifier), every
    binding of the name index comes from an entry of the collection, and
    the name of every entry is bound to the identifier of an entry that
    carries this name. *)
Record wf (tbl : t) : Prop := {
  wf_sentinel :
    ∃ s, sentinel tbl = Some s ∧ InstEntry.instId s = illegal;
  wf_dense :
    ∀ (i : nat) e, instVec_ tbl !! i = Some e → InstEntry.instId e = N.of_nat i;
  wf_index_sound :
    ∀ n id, instMap_ tbl !! n = Some id →
      ∃ e, e ∈ instVec_ tbl ∧ InstEntry.name e = n ∧ InstEntry.instId e = id;
  wf_index_names :
    ∀ e, e ∈ instVec_ tbl →
      ∃ e', e' ∈ instVec_ tbl ∧ InstEntry.name e' = InstEntry.name e
            ∧ instMap_ tbl !! InstEntry.name e = Some (InstEntry.instId e')
}.

End InstTable.

(** ** A small catalog

    Three descriptors used to exercise the definitions: the illegal
    instruction, [lw] and [add], with the operand layout of the RISC-V
    I- and R-type formats. *)

Definition rdMask : N := 0xf80.
Definition rs1Mask : N := 0xf8000.
Definition rs2Mask : N := 0x1f00000.
Definition immTop12 : N := 0xfff00000.

Definition illegalEntry : InstEntry.t :=
  InstEntry.InstEntry "illegal" illegal 0 0xffffffff InstType.Int
    OperandType.None OperandMode.None 0
    OperandType.None OperandMode.None 0
    OperandType.None OperandMode.None 0
    OperandType.None OperandMode.None 0.

Definition lwEntry : InstEntry.t :=
  InstEntry.setLoadSize
    (InstEntry.InstEntry "lw" 1 0x2003 0x707f InstType.Load
       OperandType.IntReg OperandMode.Write rdMask
       OperandType.IntReg OperandMode.Read rs1Mask
       OperandType.Imm OperandMode.Read immTop12
       OperandType.None OperandMode.None 0)
    4.

Definition addEntry : InstEntry.t :=
  InstEntry.InstEntry "add" 2 0x33 0xfe00707f InstType.Int
    OperandType.IntReg OperandMode.Write rdMask
    OperandType.IntReg OperandMode.Read rs1Mask
    OperandType.IntReg OperandMode.Read rs2Mask
    OperandType.None OperandMode.None 0.

Definition sampleCatalog : list InstEntry.t :=
  [illegalEntry; lwEntry; addEntry].

Definition sampleTable : InstTable.t :=
  {| InstTable.instVec_ := sampleCatalog;
     InstTable.instMap_ := InstTable.insertNames sampleCatalog ∅ |}.

(** Two variants registered under one name with different identifiers. *)





(** ** Disciplines a catalog may follow

    Three properties of a single descriptor that depend on the values the
    catalog supplies, not on the accessors. *)

(** Slot [i] is one of the four slots and holds an operand. *)
Definition populatedSlot (e : InstEntry.t) (i : N) : Prop :=
  i < 4 ∧ InstEntry.ithOperandType e i ≠ OperandType.None.

(** The operand count is the number of populated slots, and the slots from
    the count on hold [None], [None], [0]. *)
Definition emptyBeyondCount (e : InstEntry.t) : Prop :=
  InstEntry.operandCount e
    = InstEntry.populatedSlots
        (InstEntry.ithOperandType e 0) (InstEntry.ithOperandType e 1)
        (InstEntry.ithOperandType e 2) (InstEntry.ithOperandType e 3)
  ∧ ∀ i, i < 4 → InstEntry.operandCount e ≤ i →
      InstEntry.ithOperandType e i = OperandType.None
      ∧ InstEntry.ithOperandMode e i = OperandMode.None
      ∧ InstEntry.ithOperandMask e i = 0.

(** The fixed bits and the operand bit fields are pairwise disjoint. *)
Definition fieldsDisjoint (e : InstEntry.t) : Prop :=
  N.land (InstEntry.code e) (InstEntry.codeMask e) = InstEntry.code e
  ∧ ∀ i j, i ≠ j → populatedSlot e i → populatedSlot e j →
      N.land (InstEntry.ithOperandMask e i) (InstEntry.ithOperandMask e j) = 0
      ∧ N.land (InstEntry.ithOperandMask e i) (InstEntry.codeMask e) = 0.

(** The load and store sizes are positive exactly for loads and stores. *)
Definition sizesFollowType (e : InstEntry.t) : Prop :=
  (0 < InstEntry.loadSize e ↔ InstEntry.isLoad e = true)
  ∧ (0 < InstEntry.storeSize e ↔ InstEntry.isStore e = true)
  ∧ ¬ (InstEntry.isLoad e = true ∧ InstEntry.isStore e = true).

(** Descriptors accepted by the constructors that do not follow these
    disciplines: a load whose size was never set, a compressed
    two-address form whose destination and source share one register
    field, and a variant with an unused leading slot. *)

Definition lwNoSize : InstEntry.t :=
  InstEntry.InstEntry "lw" 1 0x2003 0x707f InstType.Load
    OperandType.IntReg OperandMode.Write rdMask
    OperandType.IntReg OperandMode.Read rs1Mask
    OperandType.Imm OperandMode.Read immTop12
    OperandType.None OperandMode.None 0.

Definition caddiEntry : InstEntry.t :=
  InstEntry.InstEntry "c.addi" 2 0x0001 0xe003 InstType.Int
    OperandType.IntReg OperandMode.Write rdMask
    OperandType.IntReg OperandMode.Read rdMask
    OperandType.Imm OperandMode.Read 0x107c
    OperandType.None OperandMode.None 0.

Definition gapEntry : InstEntry.t :=
  InstEntry.InstEntry "gap" 3 0x0 0x7f InstType.Int
    OperandType.None OperandMode.None 0
    OperandType.IntReg OperandMode.Read rs1Mask
    OperandType.None OperandMode.None 0
    OperandType.None OperandMode.None 0.

Definition looseCatalog : list InstEntry.t :=
  [illegalEntry; lwNoSize; caddiEntry; gapEntry].

(** ** Observing an entry and calling its setters *)

(** The eight type predicates of the class. *)
Definition typePredicates : list (InstEntry.t → bool) :=
  [InstEntry.isLoad; InstEntry.isStore; InstEntry.isBranch;
   InstEntry.isMultiply; InstEntry.isDivide; InstEntry.isCsr;
   InstEntry.isAtomic; InstEntry.isVector].

(** Two entries that the accessors without a setter cannot tell apart:
    same name, id, code, mask, type, operand count, bit-manipulation
    flag, and the same type, mode and mask for every operand index. *)
Definition sameDescriptor (e e' : InstEntry.t) : Prop :=
  InstEntry.name e = InstEntry.name e'
  ∧ InstEntry.instId e = InstEntry.instId e'
  ∧ InstEntry.code e = InstEntry.code e'
  ∧ InstEntry.codeMask e = InstEntry.codeMask e'
  ∧ InstEntry.type e = InstEntry.type e'
  ∧ InstEntry.operandCount e = InstEntry.operandCount e'
  ∧ InstEntry.isBitManipulation e = InstEntry.isBitManipulation e'
  ∧ ∀ i, InstEntry.ithOperandType e i = InstEntry.ithOperandType e' i
         ∧ InstEntry.ithOperandMode e i = InstEntry.ithOperandMode e' i
         ∧ InstEntry.ithOperandMask e i = InstEntry.ithOperandMask e' i.

(** The five members that have a setter, and the values they hold. *)
Inductive Member :=
  IsUnsigned | LoadSize | StoreSize | ConditionalBranch | BranchToRegister.

#[global] Instance Member_eq_dec : EqDecision Member.
Proof. solve_decision. Defined.

Inductive Value := VSize (size : N) | VFlag (flag : bool).

(** Reading a member through its public getter. *)
Definition readMember (m : Member) (e : InstEntry.t) : Value :=
  match m with
  | IsUnsigned => VFlag (InstEntry.isUnsigned e)
  | LoadSize => VSize (InstEntry.loadSize e)
  | StoreSize => VSize (InstEntry.storeSize e)
  | ConditionalBranch => VFlag (InstEntry.isConditionalBranch e)
  | BranchToRegister => VFlag (InstEntry.isBranchToRegister e)
  end.

(** A call of one of the five protected setters, with its argument. *)
Inductive SetterCall :=
| SetIsUnsigned (flag : bool)
| SetLoadSize (size : N)
| SetStoreSize (size : N)
| SetConditionalBranch (flag : bool)
| SetBranchToRegister (flag : bool).

Definition member (s : SetterCall) : Member :=
  match s with
  | SetIsUnsigned _ => IsUnsigned
  | SetLoadSize _ => LoadSize
  | SetStoreSize _ => StoreSize
  | SetConditionalBranch _ => ConditionalBranch
  | SetBranchToRegister _ => BranchToRegister
  end.

Definition written (s : SetterCall) : Value :=
  match s with
  | SetIsUnsigned flag => VFlag flag
  | SetLoadSize size => VSize size
  | SetStoreSize size => VSize size
  | SetConditionalBranch flag => VFlag flag
  | SetBranchToRegister flag => VFlag flag
  end.

Definition applySetter (e : InstEntry.t) (s : SetterCall) : InstEntry.t :=
  match s with
  | SetIsUnsigned flag => InstEntry.setIsUnsigned e flag
  | SetLoadSize size => InstEntry.setLoadSize e size
  | SetStoreSize size => InstEntry.setStoreSize e size
  | SetConditionalBranch flag => InstEntry.setConditionalBranch e flag
  | SetBranchToRegister flag => InstEntry.setBranchToRegister e flag
  end.

(** A sequence of setter calls on one entry, in program order. *)
Definition applySetters (e : InstEntry.t) (ss : list SetterCall)
    : InstEntry.t :=
  foldl applySetter e ss.

(** Case analysis on an index known to designate one of the four slots. *)
Ltac slot_cases i Hi :=
  let H := fresh in
  assert (i = 0 ∨ i = 1 ∨ i = 2 ∨ i = 3) as H by lia;
  clear Hi; destruct H as [-> | [-> | [-> | ->]]].

(** * Instruction words *)

Lemma instructionSize_spec (inst : N) :
  instructionSize inst = (if isFullSizeInst inst then 4 else 2)
  ∧ isCompressedInst inst = negb (isFullSizeInst inst).
Proof.
  unfold instructionSize, isFullSizeInst, isCompressedInst.
  split; [reflexivity|]. by repeat case_bool_decide.
Qed.

(** * Properties of the operand accessors *)

Section OperandAccessors.

Variable e : InstEntry.t.

Lemma ithOperandType_cases (i : N) :
  InstEntry.ithOperandType e i =
    match i with
    | 0 => InstEntry.op0Type_ e
    | 1 => InstEntry.op1Type_ e
    | 2 => InstEntry.op2Type_ e
    | 3 => InstEntry.op3Type_ e
    | _ => OperandType.None
    end.
Proof.
  unfold InstEntry.ithOperandType.
  destruct i as [|[[| |]|[| |]|]]; reflexivity.
Qed.

Lemma ithOperandMode_cases (i : N) :
  InstEntry.ithOperandMode e i =
    match i with
    | 0 => InstEntry.op0Mode_ e
    | 1 => InstEntry.op1Mode_ e
    | 2 => InstEntry.op2Mode_ e
    | 3 => InstEntry.op3Mode_ e
    | _ => OperandMode.None
    end.
Proof.
  unfold InstEntry.ithOperandMode.
  destruct i as [|[[| |]|[| |]|]]; reflexivity.
Qed.

Lemma ithOperandMask_cases (i : N) :
  InstEntry.ithOperandMask e i =
    match i with
    | 0 => InstEntry.op0Mask_ e
    | 1 => InstEntry.op1Mask_ e
    | 2 => InstEntry.op2Mask_ e
    | 3 => InstEntry.op3Mask_ e
    | _ => 0
    end.
Proof.
  unfold InstEntry.ithOperandMask.
  destruct i as [|[[| |]|[| |]|]]; reflexivity.
Qed.

(** The four comparisons of an accessor all fail from index 4 on. *)
Lemma beyond_slots (i : N) :
  4 ≤ i → (i =? 0) = false ∧ (i =? 1) = false
          ∧ (i =? 2) = false ∧ (i =? 3) = false.
Proof. intros Hi. repeat split; apply N.eqb_neq; lia. Qed.

Lemma isIthOperandRead_spec (i : N) :
  InstEntry.isIthOperandRead e i = true
  ↔ InstEntry.ithOperandMode e i = OperandMode.Read
    ∨ InstEntry.ithOperandMode e i = OperandMode.ReadWrite.
Proof.
  unfold InstEntry.isIthOperandRead; cbv zeta.
  rewrite orb_true_iff, !bool_decide_eq_true. reflexivity.
Qed.

Lemma isIthOperandWrite_spec (i : N) :
  InstEntry.isIthOperandWrite e i = true
  ↔ InstEntry.ithOperandMode e i = OperandMode.Write
    ∨ InstEntry.ithOperandMode e i = OperandMode.ReadWrite.
Proof.
  unfold InstEntry.isIthOperandWrite; cbv zeta.
  rewrite orb_true_iff, !bool_decide_eq_true. reflexivity.
Qed.

Lemma isIthOperandIntRegSource_spec (i : N) :
  InstEntry.isIthOperandIntRegSource e i = true
  ↔ InstEntry.ithOperandType e i = OperandType.IntReg
    ∧ InstEntry.ithOperandMode e i = OperandMode.Read.
Proof.
  unfold InstEntry.isIthOperandIntRegSource.
  case_bool_decide as Hty.
  - split; [discriminate | intros [Heq _]; contradiction].
  - rewrite bool_decide_eq_true. tauto.
Qed.

Lemma isIthOperandFpRegSource_spec (i : N) :
  InstEntry.isIthOperandFpRegSource e i = true
  ↔ InstEntry.ithOperandType e i = OperandType.FpReg
    ∧ InstEntry.ithOperandMode e i = OperandMode.Read.
Proof.
  unfold InstEntry.isIthOperandFpRegSource.
  case_bool_decide as Hty.
  - split; [discriminate | intros [Heq _]; contradiction].
  - rewrite bool_decide_eq_true. tauto.
Qed.

(** A [ReadWrite] operand is never reported as a register source. *)
Lemma readWrite_not_source (i : N) :
  InstEntry.ithOperandMode e i = OperandMode.ReadWrite →
  InstEntry.isIthOperandIntRegSource e i = false
  ∧ InstEntry.isIthOperandFpRegSource e i = false.
Proof.
  intros Hrw. split; apply not_true_is_false.
  - rewrite isIthOperandIntRegSource_spec. intros [_ Hr]. congruence.
  - rewrite isIthOperandFpRegSource_spec. intros [_ Hr]. congruence.
Qed.

(** An entry has a single type: it cannot be both a load and a store. *)
Lemma isLoad_isStore_exclusive :
  ¬ (InstEntry.isLoad e = true ∧ InstEntry.isStore e = true).
Proof.
  unfold InstEntry.isLoad, InstEntry.isStore.
  rewrite !bool_decide_eq_true. intros [Hl Hs]. congruence.
Qed.

End OperandAccessors.

(** The setters only touch the member they name. *)
Lemma setLoadSize_loadSize (e : InstEntry.t) (n : N) :
  InstEntry.loadSize (InstEntry.setLoadSize e n) = n
  ∧ InstEntry.storeSize (InstEntry.setLoadSize e n) = InstEntry.storeSize e
  ∧ InstEntry.type (InstEntry.setLoadSize e n) = InstEntry.type e.
Proof. destruct e; repeat split. Qed.

Lemma setStoreSize_storeSize (e : InstEntry.t) (n : N) :
  InstEntry.storeSize (InstEntry.setStoreSize e n) = n
  ∧ InstEntry.loadSize (InstEntry.setStoreSize e n) = InstEntry.loadSize e
  ∧ InstEntry.type (InstEntry.setStoreSize e n) = InstEntry.type e.
Proof. destruct e; repeat split. Qed.

(** What the constructor establishes: the operand count is the number of
    slots with a type other than [None], and the sizes are still zero,
    whatever the instruction type. *)
Lemma InstEntry_operandCount (name : string) (id : InstId) (code mask : N)
    (ty : InstType.t)
    (t0 : OperandType.t) (o0 : OperandMode.t) (m0 : N)
    (t1 : OperandType.t) (o1 : OperandMode.t) (m1 : N)
    (t2 : OperandType.t) (o2 : OperandMode.t) (m2 : N)
    (t3 : OperandType.t) (o3 : OperandMode.t) (m3 : N) :
  let e := InstEntry.InstEntry name id code mask ty
             t0 o0 m0 t1 o1 m1 t2 o2 m2 t3 o3 m3 in
  InstEntry.operandCount e = InstEntry.populatedSlots t0 t1 t2 t3
  ∧ InstEntry.operandCount e ≤ 4
  ∧ InstEntry.loadSize e = 0 ∧ InstEntry.storeSize e = 0.
Proof.
  cbv zeta. split; [reflexivity|]. split; [|split; reflexivity].
  unfold InstEntry.operandCount, InstEntry.InstEntry, InstEntry.opCount_,
    InstEntry.populatedSlots.
  repeat case_bool_decide; lia.
Qed.

(** When the populated slots are contiguous from index 0, the slots from
    [operandCount] on are exactly those whose type is [None]. *)
Lemma contiguous_slots_beyond_count (e : InstEntry.t) :
  InstEntry.operandCount e
    = InstEntry.populatedSlots (InstEntry.op0Type_ e) (InstEntry.op1Type_ e)
        (InstEntry.op2Type_ e) (InstEntry.op3Type_ e) →
  (∀ i, InstEntry.ithOperandType e i = OperandType.None →
        InstEntry.ithOperandType e (i + 1) = OperandType.None) →
  ∀ i, InstEntry.operandCount e ≤ i ↔
       InstEntry.ithOperandType e i = OperandType.None.
Proof.
  intros Hcnt Hcontig i.
  pose proof (Hcontig 0) as H01. pose proof (Hcontig 1) as H12.
  pose proof (Hcontig 2) as H23.
  rewrite Hcnt. unfold InstEntry.populatedSlots.
  rewrite !ithOperandType_cases in *. simpl in H01, H12, H23.
  repeat case_bool_decide;
    destruct i as [|[[[]|[]|]|[[]|[]|]|]]; simpl;
    split; intros; try done; try lia; try tauto.
Qed.

(** The default-constructed entry describes the illegal instruction and
    has no operand. *)
Lemma default_entry :
  InstEntry.instId InstEntry.default = illegal
  ∧ InstEntry.operandCount InstEntry.default = 0
  ∧ ∀ i, InstEntry.ithOperandType InstEntry.default i = OperandType.None
         ∧ InstEntry.ithOperandMode InstEntry.default i = OperandMode.None
         ∧ InstEntry.ithOperandMask InstEntry.default i = 0.
Proof.
  split; [reflexivity|]. split; [reflexivity|]. intros i.
  rewrite ithOperandType_cases, ithOperandMode_cases, ithOperandMask_cases.
  by destruct i as [|[[| |]|[| |]|]].
Qed.

(** C5: for every entry and every index, [isIthOperandRead] holds exactly
    when the mode of the operand is [Read] or [ReadWrite], and
    [isIthOperandWrite] exactly when it is [Write] or [ReadWrite]. *)
Theorem read_write_follow_mode (e : InstEntry.t) (i : N) :
  (InstEntry.isIthOperandRead e i = true
   ↔ InstEntry.ithOperandMode e i = OperandMode.Read
     ∨ InstEntry.ithOperandMode e i = OperandMode.ReadWrite)
  ∧ (InstEntry.isIthOperandWrite e i = true
     ↔ InstEntry.ithOperandMode e i = OperandMode.Write
       ∨ InstEntry.ithOperandMode e i = OperandMode.ReadWrite).
Proof.
  split; [apply isIthOperandRead_spec | apply isIthOperandWrite_spec].
Qed.

(** C6: for every entry and every index, [isIthOperandIntRegSource] holds
    exactly when the operand type is [IntReg] and its mode is exactly
    [Read], and [isIthOperandFpRegSource] exactly when the type is [FpReg]
    and the mode is exactly [Read]; [ReadWrite] does not qualify. *)
Theorem reg_source_needs_exact_read (e : InstEntry.t) (i : N) :
  (InstEntry.isIthOperandIntRegSource e i = true
   ↔ InstEntry.ithOperandType e i = OperandType.IntReg
     ∧ InstEntry.ithOperandMode e i = OperandMode.Read)
  ∧ (InstEntry.isIthOperandFpRegSource e i = true
     ↔ InstEntry.ithOperandType e i = OperandType.FpReg
       ∧ InstEntry.ithOperandMode e i = OperandMode.Read)
  ∧ (InstEntry.ithOperandMode e i = OperandMode.ReadWrite →
     InstEntry.isIthOperandIntRegSource e i = false
     ∧ InstEntry.isIthOperandFpRegSource e i = false).
Proof.
  split; [apply isIthOperandIntRegSource_spec |].
  split; [apply isIthOperandFpRegSource_spec | apply readWrite_not_source].
Qed.

(** C10: for every entry and every unsigned index [i >= 4], however large,
    [ithOperandType] returns [None], [ithOperandMode] returns [None] and
    [ithOperandMask] returns [0]: the accessors are total. *)
Theorem accessors_beyond_four_slots (e : InstEntry.t) (i : N) :
  4 ≤ i →
  InstEntry.ithOperandType e i = OperandType.None
  ∧ InstEntry.ithOperandMode e i = OperandMode.None
  ∧ InstEntry.ithOperandMask e i = 0.
Proof.
  intros Hi. destruct (beyond_slots i Hi) as (H0 & H1 & H2 & H3).
  unfold InstEntry.ithOperandType, InstEntry.ithOperandMode,
    InstEntry.ithOperandMask.
  rewrite H0, H1, H2, H3. auto.
Qed.

Lemma accessors_beyond_four_slots_witness :
  4 ≤ 4294967295
  ∧ InstEntry.ithOperandType lwEntry 4294967295 = OperandType.None
  ∧ InstEntry.ithOperandMode lwEntry 4294967295 = OperandMode.None
  ∧ InstEntry.ithOperandMask lwEntry 4294967295 = 0.
Proof.
  split; [lia | apply (accessors_beyond_four_slots lwEntry 4294967295); lia].
Defined.

(** * Construction of the table *)

Section NameIndex.

Implicit Types (v : list InstEntry.t) (m : gmap string InstId).
Implicit Types (e : InstEntry.t) (n : string) (id : InstId).

Lemma insertNames_nil m : InstTable.insertNames [] m = m.
Proof. reflexivity. Qed.

Lemma insertNames_cons e v m :
  InstTable.insertNames (e :: v) m
  = InstTable.insertNames v (<[InstEntry.name e := InstEntry.instId e]> m).
Proof. reflexivity. Qed.

(** Insertions only add or overwrite keys. *)
Lemma insertNames_is_Some v : ∀ m n,
  is_Some (m !! n) → is_Some (InstTable.insertNames v m !! n).
Proof.
  induction v as [|e v IH]; intros m n Hm; [exact Hm|].
  rewrite insertNames_cons. apply IH.
  destruct (decide (InstEntry.name e = n)) as [->|Hne].
  - rewrite lookup_insert_eq. eauto.
  - rewrite lookup_insert_ne by done. exact Hm.
Qed.

(** Every binding of the index was there initially or comes from an
    entry of the list. *)
Lemma insertNames_lookup_Some v : ∀ m n id,
  InstTable.insertNames v m !! n = Some id →
  m !! n = Some id
  ∨ ∃ e, e ∈ v ∧ InstEntry.name e = n ∧ InstEntry.instId e = id.
Proof.
  induction v as [|e v IH]; intros m n id Hl; [left; exact Hl|].
  rewrite insertNames_cons in Hl.
  destruct (IH _ _ _ Hl) as [Hm | (e' & Hin & Hn & Hid)].
  - destruct (decide (InstEntry.name e = n)) as [Heq|Hne].
    + subst n. rewrite lookup_insert_eq in Hm. injection Hm as <-.
      right. exists e. split; [left | done].
    + rewrite lookup_insert_ne in Hm by done. left; exact Hm.
  - right. exists e'. split; [right; exact Hin | done].
Qed.

(** The name of every entry of the list is bound, to the identifier of
    an entry carrying that name. *)
Lemma insertNames_lookup_elem v m e :
  e ∈ v →
  ∃ e', e' ∈ v ∧ InstEntry.name e' = InstEntry.name e
        ∧ InstTable.insertNames v m !! InstEntry.name e
          = Some (InstEntry.instId e').
Proof.
  revert m. induction v as [|a v IH]; intros m Hin.
  - inversion Hin.
  - rewrite insertNames_cons.
    apply elem_of_cons in Hin as [-> | Hin].
    + destruct (insertNames_is_Some v
                  (<[InstEntry.name a := InstEntry.instId a]> m)
                  (InstEntry.name a)) as [id Hid].
      { rewrite lookup_insert_eq. eauto. }
      rewrite Hid.
      destruct (insertNames_lookup_Some _ _ _ _ Hid)
        as [Hm | (e' & Hin' & Hn & Hid')].
      * rewrite lookup_insert_eq in Hm. injection Hm as <-.
        exists a. split; [left | done].
      * exists e'. split; [right; exact Hin' |]. split; [done | congruence].
    + destruct (IH (<[InstEntry.name a := InstEntry.instId a]> m) Hin)
        as (e' & Hin' & Hn & Hl).
      exists e'. split; [right; exact Hin' | done].
Qed.

(** A name carried by no entry keeps its initial binding. *)
Lemma insertNames_lookup_other v : ∀ m n,
  (∀ e, e ∈ v → InstEntry.name e ≠ n) →
  InstTable.insertNames v m !! n = m !! n.
Proof.
  induction v as [|a v IH]; intros m n Hnot; [reflexivity|].
  rewrite insertNames_cons, IH.
  - apply lookup_insert_ne, Hnot. left.
  - intros e He. apply Hnot. right; exact He.
Qed.

End NameIndex.

Section ConsistencyChecks.

Implicit Types (v : list InstEntry.t) (e : InstEntry.t).

Lemma sentinelFirst_head v :
  InstTable.sentinelFirst v = true →
  ∃ s, v !! N.to_nat illegal = Some s ∧ InstEntry.instId s = illegal.
Proof.
  destruct v as [|s v]; [discriminate|]. simpl. intros Hs.
  exists s. split; [reflexivity | by apply N.eqb_eq].
Qed.

Lemma denseFrom_lookup v : ∀ (k : N) (i : nat) e,
  InstTable.denseFrom k v = true →
  v !! i = Some e → InstEntry.instId e = k + N.of_nat i.
Proof.
  induction v as [|a v IH]; intros k i e Hd Hl; [inversion Hl|].
  simpl in Hd. apply andb_true_iff in Hd as [Ha Hv].
  destruct i as [|i]; simpl in Hl.
  - injection Hl as <-. apply N.eqb_eq in Ha. lia.
  - rewrite (IH _ _ _ Hv Hl). lia.
Qed.

End ConsistencyChecks.

Section Constructed.

Variables (catalog : list InstEntry.t) (tbl : InstTable.t).
Hypothesis Hnew : InstTable.InstTable catalog = Some tbl.

(** What the constructor leaves in the two members, and the checks that
    the catalog passed. *)
Lemma InstTable_inv :
  InstTable.instVec_ tbl = catalog
  ∧ InstTable.instMap_ tbl = InstTable.insertNames catalog ∅
  ∧ InstTable.sentinelFirst catalog = true
  ∧ InstTable.denseFrom 0 catalog = true.
Proof.
  unfold InstTable.InstTable in Hnew. cbv zeta in Hnew.
  destruct (InstTable.consistent _) eqn:Hc in Hnew; [|discriminate].
  injection Hnew as <-.
  unfold InstTable.consistent in Hc. simpl in Hc.
  apply andb_true_iff in Hc as [Hsent Hdense].
  simpl. auto.
Qed.

Lemma InstTable_wf : InstTable.wf tbl.
Proof.
  destruct InstTable_inv as (Hvec & Hmap & Hsent & Hdense).
  split.
  - unfold InstTable.sentinel. rewrite Hvec.
    by apply sentinelFirst_head.
  - intros i e Hl. rewrite Hvec in Hl.
    rewrite (denseFrom_lookup _ _ _ _ Hdense Hl). lia.
  - intros n id Hl. rewrite Hmap in Hl.
    apply insertNames_lookup_Some in Hl as [Hl | Hl].
    + rewrite lookup_empty in Hl. discriminate.
    + by rewrite Hvec.
  - intros e He. rewrite Hvec in He |- *. rewrite Hmap.
    apply insertNames_lookup_elem, He.
Qed.

(** Names carried by no variant of the catalog are not in the index. *)
Lemma unregistered_not_indexed (n : string) :
  (∀ e, e ∈ catalog → InstEntry.name e ≠ n) →
  InstTable.instMap_ tbl !! n = None.
Proof.
  intros Hnot. destruct InstTable_inv as (_ & Hmap & _).
  rewrite Hmap, insertNames_lookup_other by exact Hnot.
  apply lookup_empty.
Qed.

End Constructed.

(** * Lookups on a well-formed table *)

Section Lookups.

Variable tbl : InstTable.t.
Hypothesis Hwf : InstTable.wf tbl.

Lemma in_range_lookup (id : InstId) :
  id < InstTable.size tbl ↔ is_Some (InstTable.instVec_ tbl !! N.to_nat id).
Proof.
  unfold InstTable.size. rewrite lookup_lt_is_Some. lia.
Qed.

Lemma getEntryVia_in_range (id : InstId) :
  id < InstTable.size tbl →
  InstTable.getEntryVia tbl id
  = (InstTable.Indexed, InstTable.instVec_ tbl !! N.to_nat id).
Proof.
  intros Hlt. unfold InstTable.getEntryVia.
  by rewrite (proj2 (N.ltb_lt _ _) Hlt).
Qed.

Lemma getEntryVia_out_of_range (id : InstId) :
  InstTable.size tbl ≤ id →
  InstTable.getEntryVia tbl id = (InstTable.Sentinel, InstTable.sentinel tbl).
Proof.
  intros Hge. unfold InstTable.getEntryVia.
  by rewrite (proj2 (N.ltb_ge _ _) Hge).
Qed.

(** An identifier found in the name index designates a populated slot,
    and the entry in that slot carries this identifier. *)
Lemma indexed_id_in_range (n : string) (id : InstId) :
  InstTable.instMap_ tbl !! n = Some id →
  id < InstTable.size tbl
  ∧ ∃ e, InstTable.instVec_ tbl !! N.to_nat id = Some e
         ∧ InstEntry.instId e = id.
Proof.
  intros Hl.
  destruct (InstTable.wf_index_sound _ Hwf _ _ Hl) as (e & He & _ & Hid).
  apply list_elem_of_lookup in He as [i Hi].
  pose proof (InstTable.wf_dense _ Hwf _ _ Hi) as Hd.
  assert (N.to_nat id = i) as Hpos by lia.
  split.
  - apply in_range_lookup. rewrite Hpos. eauto.
  - exists e. by rewrite Hpos.
Qed.


End Lookups.

(** Before construction the table holds no entry, not even the sentinel:
    a lookup has nothing to return. *)
Lemma getEntry_empty (id : InstId) (n : string) :
  InstTable.getEntry InstTable.empty id = None
  ∧ InstTable.getEntry_name InstTable.empty n = None
  ∧ InstTable.InstTable [] = None.
Proof.
  split; [|split; reflexivity].
  unfold InstTable.getEntry, InstTable.getEntryVia.
  by rewrite (proj2 (N.ltb_ge id (InstTable.size InstTable.empty)) (N.le_0_l id)).
Qed.

(** * The query surface of a constructed table *)

(** C1: on a constructed table, [getEntry(id)] returns the entry stored at
    position [id] when [id] is within the populated range and the
    illegal-instruction sentinel otherwise; [getEntry(name)] returns the
    entry whose identifier the name index maps [name] to when [name] is
    registered and the sentinel otherwise; both queries always produce
    an entry. *)
Theorem getEntry_indexed_or_sentinel
    (catalog : list InstEntry.t) (tbl : InstTable.t) :
  InstTable.InstTable catalog = Some tbl →
  ∃ s, InstTable.sentinel tbl = Some s ∧ InstEntry.instId s = illegal
    ∧ (∀ id, id < InstTable.size tbl →
         ∃ e, InstTable.instVec_ tbl !! N.to_nat id = Some e
              ∧ InstTable.getEntry tbl id = Some e)
    ∧ (∀ id, InstTable.size tbl ≤ id → InstTable.getEntry tbl id = Some s)
    ∧ (∀ n id, InstTable.instMap_ tbl !! n = Some id →
         ∃ e, InstTable.instVec_ tbl !! N.to_nat id = Some e
              ∧ InstEntry.instId e = id
              ∧ InstTable.getEntry_name tbl n = Some e)
    ∧ (∀ n, InstTable.instMap_ tbl !! n = None →
         InstTable.getEntry_name tbl n = Some s)
    ∧ (∀ id, is_Some (InstTable.getEntry tbl id))
    ∧ (∀ n, is_Some (InstTable.getEntry_name tbl n)).
Proof.
  intros Hnew. pose proof (InstTable_wf _ _ Hnew) as Hwf.
  destruct (InstTable.wf_sentinel _ Hwf) as (s & Hs & Hsid).
  assert (Hin : ∀ id, id < InstTable.size tbl →
            ∃ e, InstTable.instVec_ tbl !! N.to_nat id = Some e
                 ∧ InstTable.getEntry tbl id = Some e).
  { intros id Hlt. destruct (proj1 (in_range_lookup tbl id) Hlt) as [e He].
    exists e. split; [exact He|].
    unfold InstTable.getEntry. by rewrite getEntryVia_in_range, <- He. }
  assert (Hout : ∀ id, InstTable.size tbl ≤ id →
            InstTable.getEntry tbl id = Some s).
  { intros id Hge. unfold InstTable.getEntry.
    by rewrite getEntryVia_out_of_range, <- Hs. }
  assert (Hreg : ∀ n id, InstTable.instMap_ tbl !! n = Some id →
            ∃ e, InstTable.instVec_ tbl !! N.to_nat id = Some e
                 ∧ InstEntry.instId e = id
                 ∧ InstTable.getEntry_name tbl n = Some e).
  { intros n id Hl.
    destruct (indexed_id_in_range tbl Hwf n id Hl) as (Hlt & e & He & Hid).
    exists e. split; [exact He|]. split; [exact Hid|].
    unfold InstTable.getEntry_name, InstTable.getEntryVia_name.
    by rewrite Hl, getEntryVia_in_range, <- He. }
  assert (Hunreg : ∀ n, InstTable.instMap_ tbl !! n = None →
            InstTable.getEntry_name tbl n = Some s).
  { intros n Hl. unfold InstTable.getEntry_name, InstTable.getEntryVia_name.
    by rewrite Hl, <- Hs. }
  exists s. repeat split; try assumption.
  - intros id. destruct (N.lt_ge_cases id (InstTable.size tbl)) as [Hlt|Hge].
    + destruct (Hin id Hlt) as (e & _ & ->). eauto.
    + rewrite (Hout id Hge). eauto.
  - intros n. destruct (InstTable.instMap_ tbl !! n) as [id|] eqn:Hl.
    + destruct (Hreg n id Hl) as (e & _ & _ & ->). eauto.
    + rewrite (Hunreg n Hl). eauto.
Qed.

Lemma getEntry_indexed_or_sentinel_witness :
  InstTable.InstTable sampleCatalog = Some sampleTable
  ∧ ∃ s, InstTable.sentinel sampleTable = Some s
    ∧ InstEntry.instId s = illegal
    ∧ (∀ id, id < InstTable.size sampleTable →
         ∃ e, InstTable.instVec_ sampleTable !! N.to_nat id = Some e
              ∧ InstTable.getEntry sampleTable id = Some e)
    ∧ (∀ id, InstTable.size sampleTable ≤ id →
         InstTable.getEntry sampleTable id = Some s)
    ∧ (∀ n id, InstTable.instMap_ sampleTable !! n = Some id →
         ∃ e, InstTable.instVec_ sampleTable !! N.to_nat id = Some e
              ∧ InstEntry.instId e = id
              ∧ InstTable.getEntry_name sampleTable n = Some e)
    ∧ (∀ n, InstTable.instMap_ sampleTable !! n = None →
         InstTable.getEntry_name sampleTable n = Some s)
    ∧ (∀ id, is_Some (InstTable.getEntry sampleTable id))
    ∧ (∀ n, is_Some (InstTable.getEntry_name sampleTable n)).
Proof.
  split; [vm_compute; reflexivity |].
  apply (getEntry_indexed_or_sentinel sampleCatalog sampleTable).
  vm_compute; reflexivity.
Defined.

(** C2: on a constructed table, [hasInfo(id)] is true exactly when
    [getEntry(id)] does not fall back to the sentinel, that is when [id]
    is within the populated range; [hasInfo(name)] is true exactly when
    [name] is registered in the name index (and then [getEntry(name)]
    does not fall back either); [hasInfo] is false outside the populated
    range and for the names that no catalog variant carries. *)
Theorem hasInfo_iff_no_fallback
    (catalog : list InstEntry.t) (tbl : InstTable.t) :
  InstTable.InstTable catalog = Some tbl →
  (∀ id, InstTable.hasInfo tbl id = true
         ↔ (InstTable.getEntryVia tbl id).1 = InstTable.Indexed)
  ∧ (∀ id, InstTable.hasInfo tbl id = true ↔ id < InstTable.size tbl)
  ∧ (∀ n, InstTable.hasInfo_name tbl n = true
          ↔ ∃ id, InstTable.instMap_ tbl !! n = Some id)
  ∧ (∀ n, InstTable.hasInfo_name tbl n = true
          ↔ (InstTable.getEntryVia_name tbl n).1 = InstTable.Indexed)
  ∧ (∀ id, InstTable.size tbl ≤ id → InstTable.hasInfo tbl id = false)
  ∧ (∀ n, (∀ e, e ∈ catalog → InstEntry.name e ≠ n) →
          InstTable.hasInfo_name tbl n = false).
Proof.
  intros Hnew. pose proof (InstTable_wf _ _ Hnew) as Hwf.
  assert (Hid : ∀ id, InstTable.hasInfo tbl id = true
                      ↔ id < InstTable.size tbl).
  { intros id. apply N.ltb_lt. }
  assert (Hname : ∀ n, InstTable.hasInfo_name tbl n = true
                       ↔ ∃ id, InstTable.instMap_ tbl !! n = Some id).
  { intros n. unfold InstTable.hasInfo_name.
    rewrite bool_decide_eq_true. reflexivity. }
  split; [|split; [exact Hid | split; [exact Hname | split; [|split]]]].
  - intros id. unfold InstTable.hasInfo, InstTable.getEntryVia.
    destruct (id <? InstTable.size tbl); simpl; split; done.
  - intros n. split.
    + intros Hh. apply Hname in Hh as [id Hl].
      unfold InstTable.getEntryVia_name. rewrite Hl.
      destruct (indexed_id_in_range tbl Hwf n id Hl) as [Hlt _].
      by rewrite getEntryVia_in_range.
    + unfold InstTable.getEntryVia_name. intros Hvia. apply Hname.
      destruct (InstTable.instMap_ tbl !! n) as [id|]; [eauto | discriminate].
  - intros id Hge. by apply N.ltb_ge.
  - intros n Hnot. unfold InstTable.hasInfo_name.
    rewrite (unregistered_not_indexed _ _ Hnew n Hnot).
    apply bool_decide_eq_false. by intros [? ?].
Qed.

Lemma hasInfo_iff_no_fallback_witness :
  InstTable.InstTable sampleCatalog = Some sampleTable
  ∧ (∀ id, InstTable.hasInfo sampleTable id = true
           ↔ (InstTable.getEntryVia sampleTable id).1 = InstTable.Indexed)
  ∧ (∀ id, InstTable.hasInfo sampleTable id = true
           ↔ id < InstTable.size sampleTable)
  ∧ (∀ n, InstTable.hasInfo_name sampleTable n = true
          ↔ ∃ id, InstTable.instMap_ sampleTable !! n = Some id)
  ∧ (∀ n, InstTable.hasInfo_name sampleTable n = true
          ↔ (InstTable.getEntryVia_name sampleTable n).1 = InstTable.Indexed)
  ∧ (∀ id, InstTable.size sampleTable ≤ id →
           InstTable.hasInfo sampleTable id = false)
  ∧ (∀ n, (∀ e, e ∈ sampleCatalog → InstEntry.name e ≠ n) →
          InstTable.hasInfo_name sampleTable n = false).
Proof.
  split; [vm_compute; reflexivity |].
  apply (hasInfo_iff_no_fallback sampleCatalog sampleTable).
  vm_compute; reflexivity.
Defined.





(** * What the constructors leave to the catalog

    Neither [InstEntry::InstEntry] nor the table constructor constrains
    the operand layout, the masks or the sizes of a variant: the table is
    built from catalogs whose entries follow the three disciplines above,
    and equally from catalogs whose entries do not.  Whether the entries
    served by the table follow them is therefore a fact about the
    compiled-in catalog data. *)

Lemma sampleCatalog_disciplined (e : InstEntry.t) :
  e ∈ sampleCatalog →
  emptyBeyondCount e ∧ fieldsDisjoint e ∧ sizesFollowType e.
Proof.
  intros He. unfold sampleCatalog in He.
  repeat (apply elem_of_cons in He as [-> | He]); [| | |inversion He].
  all: split; [|split].
  all: try (split; [reflexivity|]; intros i Hi Hcnt; slot_cases i Hi;
            first [ by vm_compute | by (vm_compute in Hcnt; destruct Hcnt) ]).
  all: try (split; [reflexivity|]; intros i j Hne [Hi Hti] [Hj Htj];
            slot_cases i Hi; slot_cases j Hj;
            first [ by destruct Hne | by destruct Hti | by destruct Htj
                  | by vm_compute ]).
  all: unfold sizesFollowType; vm_compute; intuition congruence.
Qed.

Lemma looseCatalog_accepted : is_Some (InstTable.InstTable looseCatalog).
Proof. vm_compute. eauto. Qed.

Lemma lwNoSize_sizes : lwNoSize ∈ looseCatalog ∧ ¬ sizesFollowType lwNoSize.
Proof.
  split; [right; left|]. intros (Hld & _ & _).
  assert (0 < InstEntry.loadSize lwNoSize) as Hlt by (by apply Hld).
  vm_compute in Hlt. discriminate.
Qed.

Lemma caddiEntry_fields : caddiEntry ∈ looseCatalog ∧ ¬ fieldsDisjoint caddiEntry.
Proof.
  split; [right; right; left|]. intros [_ Hdis].
  destruct (Hdis 0 1) as [H01 _]; [lia | split; [lia | by vm_compute] ..|].
  vm_compute in H01. discriminate.
Qed.

Lemma gapEntry_slots : gapEntry ∈ looseCatalog ∧ ¬ emptyBeyondCount gapEntry.
Proof.
  split; [right; right; right; left|]. intros [_ Hslots].
  destruct (Hslots 1) as [Hty _]; [lia | by vm_compute |].
  vm_compute in Hty. discriminate.
Qed.

(** * Size of an instruction word *)

Lemma land_3_mod_4 (inst : N) : N.land inst 3 = inst mod 4.
Proof. change 3 with (N.ones 2). apply N.land_ones. Qed.

Lemma land_3_upper_half (u h : N) :
  N.land (N.lor (N.shiftl u 16) h) 3 = N.land h 3.
Proof.
  rewrite N.land_lor_distr_l.
  assert (N.land (N.shiftl u 16) 3 = 0) as ->.
  { rewrite land_3_mod_4, N.shiftl_mul_pow2.
    replace (u * 2 ^ 16) with (u * 2 ^ 14 * 4) by lia.
    apply N.Div0.mod_mul. }
  apply N.lor_0_l.
Qed.

(** X1: a word is a full-size instruction exactly when its two low-order
    bits are both set, and compressed otherwise; [instructionSize] is 4 on
    the former and 2 on the latter, and takes no other value. *)
Theorem instruction_size_classes (inst : N) :
  (isFullSizeInst inst = true ↔ inst mod 4 = 3)
  ∧ (isCompressedInst inst = true ↔ inst mod 4 < 3)
  ∧ isCompressedInst inst = negb (isFullSizeInst inst)
  ∧ (instructionSize inst = 4 ↔ isFullSizeInst inst = true)
  ∧ (instructionSize inst = 2 ↔ isCompressedInst inst = true)
  ∧ (instructionSize inst = 2 ∨ instructionSize inst = 4).
Proof.
  unfold isFullSizeInst, isCompressedInst, instructionSize.
  rewrite land_3_mod_4.
  pose proof (N.mod_upper_bound inst 4) as Hlt.
  repeat case_bool_decide; repeat split; intros; try done; try lia; auto.
Qed.

(** X2: the size of an instruction is decided by its first half-word:
    whatever the upper sixteen bits, the word has the size and the class
    of its lower half; more generally size and class only depend on the
    two low-order bits of the word. *)
Theorem instruction_size_from_low_bits (u h inst : N) :
  instructionSize (N.lor (N.shiftl u 16) h) = instructionSize h
  ∧ isFullSizeInst (N.lor (N.shiftl u 16) h) = isFullSizeInst h
  ∧ isCompressedInst (N.lor (N.shiftl u 16) h) = isCompressedInst h
  ∧ instructionSize inst = instructionSize (inst mod 4)
  ∧ isFullSizeInst inst = isFullSizeInst (inst mod 4)
  ∧ isCompressedInst inst = isCompressedInst (inst mod 4).
Proof.
  unfold isFullSizeInst, isCompressedInst, instructionSize.
  rewrite land_3_upper_half. do 3 (split; [reflexivity|]).
  rewrite !land_3_mod_4, N.Div0.mod_mod. done.
Qed.

(** * Type predicates *)

(** X3: an entry answers true to at most one of the eight type
    predicates, and to none of them exactly when its type is [Int], [Fp]
    or one of the bit-manipulation types. *)
Theorem type_predicates_exclusive (e : InstEntry.t) :
  (length (List.filter (λ p, p e) typePredicates) ≤ 1)%nat
  ∧ (List.filter (λ p, p e) typePredicates = []
     ↔ InstEntry.type e ∈
         [InstType.Int; InstType.Fp; InstType.Zba; InstType.Zbb;
          InstType.Zbc; InstType.Zbe; InstType.Zbf; InstType.Zbm;
          InstType.Zbp; InstType.Zbr; InstType.Zbs; InstType.Zbt]).
Proof.
  destruct e as [? ? ? ? ty ? ? ? ? ? ? ? ? ? ? ? ? ? ? ? ? ? ? ?].
  unfold InstEntry.type, InstEntry.type_. split.
  - destruct ty; vm_compute; lia.
  - split.
    + intros Hnone.
      destruct ty; vm_compute in Hnone;
        first [ discriminate Hnone
              | repeat first [ apply list_elem_of_here
                             | apply list_elem_of_further ] ].
    + intros Hin.
      destruct ty; first [ by vm_compute | exfalso ].
      all: repeat (apply elem_of_cons in Hin as [Hin | Hin];
                   [discriminate|]); inversion Hin.
Qed.

(** * Operand predicates *)

(** X4: an operand reported as an integer or floating-point register
    source is read and not written, and it is a source of one kind
    only. *)
Theorem register_source_is_read_only (e : InstEntry.t) (i : N) :
  InstEntry.isIthOperandIntRegSource e i = true
  ∨ InstEntry.isIthOperandFpRegSource e i = true →
  InstEntry.isIthOperandRead e i = true
  ∧ InstEntry.isIthOperandWrite e i = false
  ∧ InstEntry.isIthOperandIntRegSource e i
    = negb (InstEntry.isIthOperandFpRegSource e i).
Proof.
  intros Hsrc.
  assert (InstEntry.ithOperandMode e i = OperandMode.Read) as Hmode.
  { destruct Hsrc as [Hsrc | Hsrc].
    - by apply isIthOperandIntRegSource_spec in Hsrc as [_ Hmode].
    - by apply isIthOperandFpRegSource_spec in Hsrc as [_ Hmode]. }
  split; [apply isIthOperandRead_spec; auto|]. split.
  - apply not_true_is_false. rewrite isIthOperandWrite_spec.
    intros [Hw | Hw]; congruence.
  - destruct Hsrc as [Hsrc | Hsrc]; rewrite Hsrc; simpl.
    + symmetry. apply negb_true_iff, not_true_is_false.
      rewrite isIthOperandFpRegSource_spec. intros [Hfp _].
      apply isIthOperandIntRegSource_spec in Hsrc as [Hint _]. congruence.
    + apply not_true_is_false.
      rewrite isIthOperandIntRegSource_spec. intros [Hint _].
      apply isIthOperandFpRegSource_spec in Hsrc as [Hfp _]. congruence.
Qed.

Lemma register_source_is_read_only_witness :
  (InstEntry.isIthOperandIntRegSource lwEntry 1 = true
   ∨ InstEntry.isIthOperandFpRegSource lwEntry 1 = true)
  ∧ InstEntry.isIthOperandRead lwEntry 1 = true
  ∧ InstEntry.isIthOperandWrite lwEntry 1 = false
  ∧ InstEntry.isIthOperandIntRegSource lwEntry 1
    = negb (InstEntry.isIthOperandFpRegSource lwEntry 1).
Proof.
  assert (InstEntry.isIthOperandIntRegSource lwEntry 1 = true
          ∨ InstEntry.isIthOperandFpRegSource lwEntry 1 = true) as Hsrc
    by (left; reflexivity).
  split; [exact Hsrc |].
  exact (register_source_is_read_only lwEntry 1 Hsrc).
Defined.

(** X5: from index 4 on, an operand is neither read nor written and is
    not a register source, whatever the entry. *)
Theorem no_access_beyond_four_slots (e : InstEntry.t) (i : N) :
  4 ≤ i →
  InstEntry.isIthOperandRead e i = false
  ∧ InstEntry.isIthOperandWrite e i = false
  ∧ InstEntry.isIthOperandIntRegSource e i = false
  ∧ InstEntry.isIthOperandFpRegSource e i = false.
Proof.
  intros Hi. destruct (beyond_slots i Hi) as (H0 & H1 & H2 & H3).
  unfold InstEntry.isIthOperandRead, InstEntry.isIthOperandWrite,
    InstEntry.isIthOperandIntRegSource, InstEntry.isIthOperandFpRegSource,
    InstEntry.ithOperandType, InstEntry.ithOperandMode.
  rewrite H0, H1, H2, H3. done.
Qed.

Lemma no_access_beyond_four_slots_witness :
  4 ≤ 4
  ∧ InstEntry.isIthOperandRead addEntry 4 = false
  ∧ InstEntry.isIthOperandWrite addEntry 4 = false
  ∧ InstEntry.isIthOperandIntRegSource addEntry 4 = false
  ∧ InstEntry.isIthOperandFpRegSource addEntry 4 = false.
Proof.
  split; [lia | apply (no_access_beyond_four_slots addEntry 4); lia].
Defined.

(** X6: the two access predicates together determine the mode of an
    operand: read and written is [ReadWrite], read only is [Read],
    written only is [Write], neither is [None]. *)
Theorem access_predicates_determine_mode (e : InstEntry.t) (i : N) :
  (InstEntry.isIthOperandRead e i = true
   ∧ InstEntry.isIthOperandWrite e i = true
   ↔ InstEntry.ithOperandMode e i = OperandMode.ReadWrite)
  ∧ (InstEntry.isIthOperandRead e i = true
     ∧ InstEntry.isIthOperandWrite e i = false
     ↔ InstEntry.ithOperandMode e i = OperandMode.Read)
  ∧ (InstEntry.isIthOperandRead e i = false
     ∧ InstEntry.isIthOperandWrite e i = true
     ↔ InstEntry.ithOperandMode e i = OperandMode.Write)
  ∧ (InstEntry.isIthOperandRead e i = false
     ∧ InstEntry.isIthOperandWrite e i = false
     ↔ InstEntry.ithOperandMode e i = OperandMode.None).
Proof.
  unfold InstEntry.isIthOperandRead, InstEntry.isIthOperandWrite.
  destruct (InstEntry.ithOperandMode e i); simpl;
    repeat split; intros; try done; by intuition discriminate.
Qed.

(** * Setter calls *)

Lemma sameDescriptor_refl (e : InstEntry.t) : sameDescriptor e e.
Proof. unfold sameDescriptor. by repeat split. Qed.

Lemma sameDescriptor_trans (e1 e2 e3 : InstEntry.t) :
  sameDescriptor e1 e2 → sameDescriptor e2 e3 → sameDescriptor e1 e3.
Proof.
  unfold sameDescriptor.
  intros (? & ? & ? & ? & ? & ? & ? & H12) (? & ? & ? & ? & ? & ? & ? & H23).
  repeat split; try congruence.
  all: destruct (H12 i) as (? & ? & ?), (H23 i) as (? & ? & ?); congruence.
Qed.

Lemma applySetter_descriptor (e : InstEntry.t) (s : SetterCall) :
  sameDescriptor e (applySetter e s).
Proof. destruct e, s; unfold sameDescriptor; by repeat split. Qed.

Lemma applySetters_descriptor (ss : list SetterCall) : ∀ e,
  sameDescriptor e (applySetters e ss).
Proof.
  induction ss as [|s ss IH]; intros e; [apply sameDescriptor_refl|].
  apply (sameDescriptor_trans _ (applySetter e s)).
  - apply applySetter_descriptor.
  - apply IH.
Qed.

(** Entries with the same descriptor answer the derived predicates
    alike. *)
Lemma sameDescriptor_predicates (e e' : InstEntry.t) :
  sameDescriptor e e' →
  (∀ p, p ∈ typePredicates → p e = p e')
  ∧ ∀ i, InstEntry.isIthOperandRead e i = InstEntry.isIthOperandRead e' i
         ∧ InstEntry.isIthOperandWrite e i = InstEntry.isIthOperandWrite e' i
         ∧ InstEntry.isIthOperandIntRegSource e i
           = InstEntry.isIthOperandIntRegSource e' i
         ∧ InstEntry.isIthOperandFpRegSource e i
           = InstEntry.isIthOperandFpRegSource e' i.
Proof.
  intros (_ & _ & _ & _ & Hty & _ & _ & Hops). split.
  - intros p Hp. unfold InstEntry.type in Hty. unfold typePredicates in Hp.
    repeat (apply elem_of_cons in Hp as [-> | Hp];
            [unfold InstEntry.isLoad, InstEntry.isStore, InstEntry.isBranch,
               InstEntry.isMultiply, InstEntry.isDivide, InstEntry.isCsr,
               InstEntry.isAtomic, InstEntry.isVector; by rewrite Hty |]).
    inversion Hp.
  - intros i. destruct (Hops i) as (Ht & Hm & _).
    unfold InstEntry.isIthOperandRead, InstEntry.isIthOperandWrite,
      InstEntry.isIthOperandIntRegSource, InstEntry.isIthOperandFpRegSource.
    by rewrite Ht, Hm.
Qed.

(** X7: no sequence of setter calls changes the name, id, code, code
    mask, type, operand count, bit-manipulation flag or any operand's
    type, mode or mask of an entry; the type predicates and the operand
    predicates therefore answer as before the calls. *)
Theorem setters_preserve_descriptor (e : InstEntry.t) (ss : list SetterCall) :
  sameDescriptor e (applySetters e ss)
  ∧ (∀ p, p ∈ typePredicates → p e = p (applySetters e ss))
  ∧ ∀ i, InstEntry.isIthOperandRead e i
           = InstEntry.isIthOperandRead (applySetters e ss) i
         ∧ InstEntry.isIthOperandWrite e i
           = InstEntry.isIthOperandWrite (applySetters e ss) i
         ∧ InstEntry.isIthOperandIntRegSource e i
           = InstEntry.isIthOperandIntRegSource (applySetters e ss) i
         ∧ InstEntry.isIthOperandFpRegSource e i
           = InstEntry.isIthOperandFpRegSource (applySetters e ss) i.
Proof.
  pose proof (applySetters_descriptor ss e) as Hsame.
  split; [exact Hsame | by apply sameDescriptor_predicates].
Qed.

Lemma readMember_applySetter_same (e : InstEntry.t) (s : SetterCall) :
  readMember (member s) (applySetter e s) = written s.
Proof. by destruct e, s. Qed.

Lemma readMember_applySetter_other (e : InstEntry.t) (s : SetterCall)
    (m : Member) :
  member s ≠ m → readMember m (applySetter e s) = readMember m e.
Proof. by destruct e, s, m. Qed.

Lemma readMember_applySetters_other (m : Member) (ss : list SetterCall) :
  ∀ e, Forall (λ s, member s ≠ m) ss →
       readMember m (applySetters e ss) = readMember m e.
Proof.
  induction ss as [|s ss IH]; intros e Hall; [reflexivity|].
  apply Forall_cons in Hall as [Hs Hss].
  change (applySetters e (s :: ss)) with (applySetters (applySetter e s) ss).
  rewrite IH by exact Hss. by apply readMember_applySetter_other.
Qed.

(** X9: a member that none of the calls of a sequence targets reads
    after the sequence as it did before. *)
Theorem untouched_member_kept
    (m : Member) (ss : list SetterCall) (e : InstEntry.t) :
  Forall (λ s, member s ≠ m) ss →
  readMember m (applySetters e ss) = readMember m e.
Proof. apply readMember_applySetters_other. Qed.

Lemma untouched_member_kept_witness :
  Forall (λ s, member s ≠ LoadSize) [SetStoreSize 8; SetIsUnsigned true]
  ∧ readMember LoadSize
      (applySetters lwEntry [SetStoreSize 8; SetIsUnsigned true])
    = readMember LoadSize lwEntry.
Proof.
  assert (Forall (λ s, member s ≠ LoadSize)
            [SetStoreSize 8; SetIsUnsigned true]) as Hall
    by (repeat constructor; discriminate).
  split; [exact Hall |].
  exact (untouched_member_kept LoadSize _ lwEntry Hall).
Defined.

(** X8: after a sequence of setter calls, a member reads as the argument
    of the last call that targets it, whatever was written before and
    whatever other members are written afterwards. *)
Theorem setter_last_write_wins
    (e : InstEntry.t) (ss ss' : list SetterCall) (s : SetterCall) :
  Forall (λ s', member s' ≠ member s) ss' →
  readMember (member s) (applySetters e (ss ++ s :: ss')) = written s.
Proof.
  intros Hlater. unfold applySetters. rewrite foldl_app. simpl.
  fold (applySetters (applySetter (foldl applySetter e ss) s) ss').
  rewrite readMember_applySetters_other by exact Hlater.
  apply readMember_applySetter_same.
Qed.

Lemma setter_last_write_wins_witness :
  Forall (λ s', member s' ≠ member (SetLoadSize 4)) [SetIsUnsigned true]
  ∧ readMember (member (SetLoadSize 4))
      (applySetters lwNoSize
         ([SetLoadSize 2] ++ SetLoadSize 4 :: [SetIsUnsigned true]))
    = written (SetLoadSize 4).
Proof.
  assert (Forall (λ s', member s' ≠ member (SetLoadSize 4))
            [SetIsUnsigned true]) as Hall
    by (repeat constructor; discriminate).
  split; [exact Hall |].
  exact (setter_last_write_wins lwNoSize [SetLoadSize 2]
           [SetIsUnsigned true] (SetLoadSize 4) Hall).
Defined.

(** X10: two setter calls on different members commute, a call
    overwrites an earlier call on the same member, and a call leaves the
    entry as it is exactly when it writes the value the member already
    holds. *)
Theorem setter_calls_compose (e : InstEntry.t) (s1 s2 : SetterCall) :
  applySetter (applySetter e s1) s2
    = (if decide (member s1 = member s2) then applySetter e s2
       else applySetter (applySetter e s2) s1)
  ∧ (applySetter e s1 = e ↔ readMember (member s1) e = written s1).
Proof.
  split.
  - destruct e, s1, s2; reflexivity.
  - split.
    + intros Heq. rewrite <- Heq at 1. apply readMember_applySetter_same.
    + destruct e, s1; simpl; intros [= ->]; reflexivity.
Qed.

(** X11: the accessors expose the whole state of an entry: two entries
    are equal exactly when they have the same descriptor and the five
    settable members read alike. *)
Theorem entry_extensionality (e e' : InstEntry.t) :
  e = e'
  ↔ sameDescriptor e e' ∧ ∀ m, readMember m e = readMember m e'.
Proof.
  split; [intros ->; split; [apply sameDescriptor_refl | done] |].
  intros [(Hn & Hid & Hc & Hm & Hty & Hcnt & Hbm & Hops) Hmem].
  pose proof (Hops 0) as (?&?&?). pose proof (Hops 1) as (?&?&?).
  pose proof (Hops 2) as (?&?&?). pose proof (Hops 3) as (?&?&?).
  pose proof (Hmem IsUnsigned). pose proof (Hmem LoadSize).
  pose proof (Hmem StoreSize). pose proof (Hmem ConditionalBranch).
  pose proof (Hmem BranchToRegister).
  clear Hops Hmem. destruct e, e'.
  unfold InstEntry.name, InstEntry.instId, InstEntry.code,
    InstEntry.codeMask, InstEntry.type, InstEntry.operandCount,
    InstEntry.isBitManipulation, readMember, InstEntry.isUnsigned,
    InstEntry.loadSize, InstEntry.storeSize, InstEntry.isConditionalBranch,
    InstEntry.isBranchToRegister, InstEntry.ithOperandType,
    InstEntry.ithOperandMode, InstEntry.ithOperandMask in *.
  simpl in *. simplify_eq. reflexivity.
Qed.
